(** * Migration chain of the posts table: alembic revision scripts

    The repository's [alembic/versions] directory holds three revision
    scripts.  Each one is a module with a [revision] and a [down_revision]
    identifier and two functions, [upgrade] and [downgrade], whose bodies
    are straight-line sequences of calls into alembic's [op] interface.

    This development embeds the three scripts as data (the calls of each
    body, in statement order), gives [op] a reference semantics over an
    abstract schema, and builds the migration-chain engine of the
    specification on top of it. *)

From stdpp Require Import gmap strings list fin_maps.

Open Scope string_scope.

(** ** Data model *)

(** The column types the scripts construct: [sa.String()], [sa.Integer()],
    [sa.Boolean()] and [sa.TIMESTAMP(timezone=...)]. *)
Inductive ColumnType : Type :=
  | String_
  | Integer
  | Boolean
  | TIMESTAMP (timezone : bool).

(** A [server_default] is either a plain string literal or [sa.text(...)]. *)
Inductive ServerDefault : Type :=
  | literal (s : string)
  | text (s : string).

(** [sa.Column(name, type_, nullable=..., server_default=...)]. *)
Record Column : Type := mkColumn {
  name : string;
  type_ : ColumnType;
  nullable : bool;
  server_default : option ServerDefault
}.

(** One schema edit is one call into [op]. *)
Inductive SchemaEdit : Type :=
  | add_column (table_name : string) (column : Column)
  | drop_column (table_name : string) (column_name : string)
  | create_foreign_key (constraint_name : string)
      (source_table referent_table : string)
      (local_cols remote_cols : list string) (ondelete : option string)
  | drop_constraint (constraint_name : string) (table_name : string).

(** A revision script: its module-level identifiers and the bodies of its
    two functions. *)
Record MigrationStep : Type := mkStep {
  revision : string;
  down_revision : option string;
  branch_labels : option string;
  depends_on : option string;
  upgrade : list SchemaEdit;
  downgrade : list SchemaEdit
}.

#[global] Instance ColumnType_eq_dec : EqDecision ColumnType.
Proof. solve_decision. Defined.
#[global] Instance ServerDefault_eq_dec : EqDecision ServerDefault.
Proof. solve_decision. Defined.
#[global] Instance Column_eq_dec : EqDecision Column.
Proof. solve_decision. Defined.
#[global] Instance SchemaEdit_eq_dec : EqDecision SchemaEdit.
Proof. solve_decision. Defined.
#[global] Instance MigrationStep_eq_dec : EqDecision MigrationStep.
Proof. solve_decision. Defined.

(** ** The three revision scripts *)

(** 134d9a43f339_add_content_column_to_posts_table.py *)
Definition step_134d9a43f339 : MigrationStep := {|
  revision := "134d9a43f339";
  down_revision := Some "fa8d6eac1730";
  branch_labels := None;
  depends_on := None;
  upgrade :=
    [ add_column "posts" (mkColumn "content" String_ false None) ];
  downgrade :=
    [ drop_column "posts" "content" ]
|}.

(** 2b864134392f_add_foreign_key_to_posts_table.py *)
Definition step_2b864134392f : MigrationStep := {|
  revision := "2b864134392f";
  down_revision := Some "edafe56964a0";
  branch_labels := None;
  depends_on := None;
  upgrade :=
    [ add_column "posts" (mkColumn "owner_id" Integer false None);
      create_foreign_key "post_user_fk" "posts" "users"
        ["owner_id"] ["id"] (Some "CASCADE") ];
  downgrade :=
    [ drop_constraint "post_users_fk" "posts";
      drop_column "posts" "owner_id" ]
|}.

(** 5b5d2975fa05_add_last_few_columns_to_posts_table.py *)
Definition step_5b5d2975fa05 : MigrationStep := {|
  revision := "5b5d2975fa05";
  down_revision := Some "2b864134392f";
  branch_labels := None;
  depends_on := None;
  upgrade :=
    [ add_column "posts"
        (mkColumn "published" Boolean false (Some (literal "TRUE")));
      add_column "posts"
        (mkColumn "created_at" (TIMESTAMP true) false (Some (text "NOW()"))) ];
  downgrade :=
    [ drop_column "posts" "published";
      drop_column "posts" "created_at" ]
|}.

(** The scripts of the versions directory, as alembic discovers them. *)
Definition versions : list MigrationStep :=
  [ step_134d9a43f339; step_2b864134392f; step_5b5d2975fa05 ].

(** ** Syntactic views of an edit list *)

(** The table an edit alters.  A foreign key alters its source table; the
    referent table is only pointed at. *)
Definition edit_table (e : SchemaEdit) : string :=
  match e with
  | add_column t _ => t
  | drop_column t _ => t
  | create_foreign_key _ src _ _ _ _ => src
  | drop_constraint _ t => t
  end.

Definition added_columns (es : list SchemaEdit) : list (string * string) :=
  omap (fun e => match e with
                 | add_column t c => Some (t, name c)
                 | _ => None
                 end) es.

Definition dropped_columns (es : list SchemaEdit) : list (string * string) :=
  omap (fun e => match e with
                 | drop_column t c => Some (t, c)
                 | _ => None
                 end) es.

Definition created_constraints (es : list SchemaEdit) : list (string * string) :=
  omap (fun e => match e with
                 | create_foreign_key n src _ _ _ _ => Some (src, n)
                 | _ => None
                 end) es.

Definition dropped_constraints (es : list SchemaEdit) : list (string * string) :=
  omap (fun e => match e with
                 | drop_constraint n t => Some (t, n)
                 | _ => None
                 end) es.

(** An [add_column] of a column that is NOT NULL and has no server default. *)
Definition required_without_default (e : SchemaEdit) : bool :=
  match e with
  | add_column _ c => negb (nullable c) && bool_decide (server_default c = None)
  | _ => false
  end.

(** The edit that undoes [e], where the edit alone determines it. *)
Definition inverse_edit (e : SchemaEdit) : option SchemaEdit :=
  match e with
  | add_column t c => Some (drop_column t (name c))
  | create_foreign_key n src _ _ _ _ => Some (drop_constraint n src)
  | drop_column _ _ | drop_constraint _ _ => None
  end.

(** The exact inverse of an edit sequence: inverse edits, last edit first. *)
Definition inverse_sequence (es : list SchemaEdit) : option (list SchemaEdit) :=
  mapM inverse_edit (reverse es).

(** ** Schema and reference executor *)

(** A foreign-key constraint as the schema records it. *)
Record ForeignKey : Type := mkForeignKey {
  fk_local_cols : list string;
  fk_referent_table : string;
  fk_remote_cols : list string;
  fk_ondelete : option string
}.

(** The schema: the tables that exist, their columns keyed by
    (table, column name) and their constraints keyed by
    (table, constraint name). *)
Record Schema : Type := mkSchema {
  tables : gset string;
  columns : gmap (string * string) Column;
  constraints : gmap (string * string) ForeignKey
}.

(** Why the executor refused an edit. *)
Inductive ExecError : Type :=
  | UndefinedTable (t : string)
  | DuplicateColumn (t c : string)
  | UndefinedColumn (t c : string)
  | MissingLocalColumn (t c : string)
  | MissingRemoteColumn (t c : string)
  | DuplicateConstraint (t n : string)
  | UndefinedConstraint (t n : string).

#[global] Instance ForeignKey_eq_dec : EqDecision ForeignKey.
Proof. solve_decision. Defined.
#[global] Instance Schema_eq_dec : EqDecision Schema.
Proof. solve_decision. Defined.
#[global] Instance ExecError_eq_dec : EqDecision ExecError.
Proof. solve_decision. Defined.

(** The first column of [cols] that table [t] does not have. *)
Definition missing_column (s : Schema) (t : string) (cols : list string)
  : option string :=
  snd <$> list_find (fun c => columns s !! (t, c) = None) cols.

(** Modelled from the spec: the schema-edit executor is an external
    collaborator (alembic's [op] issuing DDL against a database) and is not
    under src/.  The specification only says that it executes one SchemaEdit
    against the live schema and reports success or a structured failure.
    [execute] gives each edit its plain DDL reading: an edit checks that the
    objects it names exist (or do not exist yet) and then adds or removes
    exactly the object it names.  Rows, and dependencies between a column
    and the constraints over it, are not tracked. *)
Definition execute (e : SchemaEdit) (s : Schema) : ExecError + Schema :=
  match e with
  | add_column t c =>
      if decide (t ∈ tables s) then
        match columns s !! (t, name c) with
        | Some _ => inl (DuplicateColumn t (name c))
        | None =>
            inr (mkSchema (tables s) (<[(t, name c) := c]> (columns s))
                   (constraints s))
        end
      else inl (UndefinedTable t)
  | drop_column t c =>
      if decide (t ∈ tables s) then
        match columns s !! (t, c) with
        | None => inl (UndefinedColumn t c)
        | Some _ =>
            inr (mkSchema (tables s) (delete (t, c) (columns s))
                   (constraints s))
        end
      else inl (UndefinedTable t)
  | create_foreign_key n src ref locals remotes ondel =>
      if decide (src ∈ tables s) then
        if decide (ref ∈ tables s) then
          match missing_column s src locals with
          | Some c => inl (MissingLocalColumn src c)
          | None =>
              match missing_column s ref remotes with
              | Some c => inl (MissingRemoteColumn ref c)
              | None =>
                  match constraints s !! (src, n) with
                  | Some _ => inl (DuplicateConstraint src n)
                  | None =>
                      inr (mkSchema (tables s) (columns s)
                             (<[(src, n) := mkForeignKey locals ref remotes ondel]>
                                (constraints s)))
                  end
              end
          end
        else inl (UndefinedTable ref)
      else inl (UndefinedTable src)
  | drop_constraint n t =>
      if decide (t ∈ tables s) then
        match constraints s !! (t, n) with
        | None => inl (UndefinedConstraint t n)
        | Some _ =>
            inr (mkSchema (tables s) (columns s)
                   (delete (t, n) (constraints s)))
        end
      else inl (UndefinedTable t)
  end.

(** A database holding [posts(id, title)] and [users(id)], the state the
    scripts expect before the content column is added. *)
Definition base_schema : Schema := {|
  tables := {["posts"; "users"]};
  columns :=
    <[("posts", "id") := mkColumn "id" Integer false None]>
      (<[("posts", "title") := mkColumn "title" String_ false None]>
         (<[("users", "id") := mkColumn "id" Integer false None]> ∅));
  constraints := ∅
|}.

(** ** Running a script body *)

(** Modelled from the spec: ChainState of section 3, kept next to the schema
    the executor acts on.  [current] is the revision currently applied,
    [None] before the first one. *)
Record EngineState (State : Type) : Type := mkEngine {
  schema : State;
  current : option string
}.
Arguments mkEngine {State} _ _.
Arguments schema {State} _.
Arguments current {State} _.

(** Modelled from the spec: the error taxonomy of section 7.  Each error
    carries the offending revision and, for a failed edit, the edit and the
    executor's cause. *)
Inductive ChainError : Type :=
  | DuplicateRevision (rev : string)
  | DanglingReference (rev missing : string)
  | NoPath (from to : option string)
  | ApplyFailed (rev : string) (e : SchemaEdit) (cause : ExecError)
  | RevertFailed (rev : string) (e : SchemaEdit) (cause : ExecError).

Inductive Direction : Type := Up | Down.

Section Engine.
(** The executor is a parameter, over any state. *)
Context {State : Type}.
Variable exec : SchemaEdit -> State -> ExecError + State.

(** The body of [upgrade()] or [downgrade()]: the [op] calls run top to
    bottom; the first one that raises ends the body, and what the earlier
    calls did stays done. *)
Fixpoint run_edits (es : list SchemaEdit) (s : State)
  : State * option (SchemaEdit * ExecError) :=
  match es with
  | [] => (s, None)
  | e :: es' =>
      match exec e s with
      | inl cause => (s, Some (e, cause))
      | inr s' => run_edits es' s'
      end
  end.

Definition edits_of (d : Direction) (step : MigrationStep) : list SchemaEdit :=
  match d with Up => upgrade step | Down => downgrade step end.

(** ChainState once the step has completed in direction [d]. *)
Definition completed (d : Direction) (step : MigrationStep) : option string :=
  match d with Up => Some (revision step) | Down => down_revision step end.

Definition failure (d : Direction) (step : MigrationStep)
    (e : SchemaEdit) (cause : ExecError) : ChainError :=
  match d with
  | Up => ApplyFailed (revision step) e cause
  | Down => RevertFailed (revision step) e cause
  end.

(** Modelled from the spec: [apply] and [revert] of section 4.1, which the
    repository leaves to alembic.  The body of the script runs as
    [run_edits] runs it; ChainState moves only when every edit of the body
    succeeded, and a failure names the revision and carries the cause. *)
Definition run_step (d : Direction) (step : MigrationStep)
    (st : EngineState State)
  : EngineState State * option ChainError :=
  match run_edits (edits_of d step) (schema st) with
  | (s', None) => (mkEngine s' (completed d step), None)
  | (s', Some (e, cause)) =>
      (mkEngine s' (current st), Some (failure d step e cause))
  end.

Definition apply := run_step Up.
Definition revert := run_step Down.

(** The steps of a path, in order, stopping at the first failure. *)
Fixpoint run_path (d : Direction) (path : list MigrationStep)
    (st : EngineState State)
  : EngineState State * option ChainError :=
  match path with
  | [] => (st, None)
  | step :: path' =>
      match run_step d step st with
      | (st', None) => run_path d path' st'
      | (st', Some err) => (st', Some err)
      end
  end.
End Engine.

(** ** The chain: registration and path resolution *)

(** Registered steps, most recently registered first. *)
Abbreviation Registry := (list MigrationStep).

Fixpoint lookup_revision (reg : Registry) (r : string) : option MigrationStep :=
  match reg with
  | [] => None
  | s :: reg' => if decide (revision s = r) then Some s else lookup_revision reg' r
  end.

(** Modelled from the spec: [register] belongs to the MigrationChain engine,
    which the repository leaves to alembic and which is not under src/.
    Following section 4.1: it inserts the step, fails with DuplicateRevision
    if the revision id already exists and with DanglingReference if
    downRevision is not null and refers to an unregistered revision. *)
Definition register (step : MigrationStep) (reg : Registry)
  : ChainError + Registry :=
  match lookup_revision reg (revision step) with
  | Some _ => inl (DuplicateRevision (revision step))
  | None =>
      match down_revision step with
      | None => inr (step :: reg)
      | Some d =>
          match lookup_revision reg d with
          | Some _ => inr (step :: reg)
          | None => inl (DanglingReference (revision step) d)
          end
      end
  end.

(** Modelled from the spec: registration at start-up (sections 3 and 7),
    one [register] call per step, first element first; the first error is
    fatal. *)
Fixpoint register_all (steps : list MigrationStep) (reg : Registry)
  : ChainError + Registry :=
  match steps with
  | [] => inr reg
  | s :: steps' =>
      match register s reg with
      | inl err => inl err
      | inr reg' => register_all steps' reg'
      end
  end.

(** Modelled from the spec: the walk along the linked predecessor relation
    that [resolvePath] of section 4.1 performs.  From [cur] follow
    down_revision until [stop] is met, collecting the steps passed (nearest
    to [cur] first).  [None] when the walk leaves the registered steps,
    passes the root, or runs out of [fuel]. *)
Fixpoint walk (reg : Registry) (fuel : nat) (cur stop : option string)
  : option (list MigrationStep) :=
  if decide (cur = stop) then Some []
  else
    match fuel with
    | 0 => None
    | S fuel' =>
        match cur with
        | None => None
        | Some r =>
            match lookup_revision reg r with
            | None => None
            | Some s => cons s <$> walk reg fuel' (down_revision s) stop
            end
        end
    end.

(** Modelled from the spec: [resolvePath] of section 4.1, not under src/.
    It walks the linked predecessor relation: when [to] descends from
    [from] the steps between them come back in ascending order, when [to]
    is an ancestor of [from] in descending order, and otherwise it fails
    with NoPath.  A walk never needs more steps than there are registered
    ones. *)
Definition resolvePath (reg : Registry) (from to : option string)
  : ChainError + Direction * list MigrationStep :=
  match walk reg (length reg) to from with
  | Some p => inr (Up, reverse p)
  | None =>
      match walk reg (length reg) from to with
      | Some p => inr (Down, p)
      | None => inl (NoPath from to)
      end
  end.

(** Modelled from the spec: [migrate] of section 4.1, not under src/.  It
    resolves the path and applies or reverts each step in order, stopping
    at the first failure. *)
Definition migrate {State : Type}
    (exec : SchemaEdit -> State -> ExecError + State)
    (reg : Registry) (from to : option string) (st : EngineState State)
  : EngineState State * option ChainError :=
  match resolvePath reg from to with
  | inr (d, path) => run_path exec d path st
  | inl err => (st, Some err)
  end.

(** An executor that only records the edits it is given, in the order it
    is given them. *)
Definition record_edit (e : SchemaEdit) (log : list SchemaEdit)
  : ExecError + list SchemaEdit :=
  inr (log ++ [e])%list.

(** ** Predicates the statements use *)

(** [descends reg a b]: following predecessor pointers from [a], zero or
    more times, arrives at [b]. *)
Inductive descends (reg : Registry) : option string -> option string -> Prop :=
  | descends_here a : descends reg a a
  | descends_step r s b :
      lookup_revision reg r = Some s ->
      descends reg (down_revision s) b ->
      descends reg (Some r) b.

(** The registries that successful [register] calls build from nothing. *)
Inductive registered : Registry -> Prop :=
  | registered_empty : registered []
  | registered_step step reg reg' :
      registered reg -> register step reg = inr reg' -> registered reg'.

(** Each step was new when it came in and its predecessor was there
    already. *)
Inductive well_linked : Registry -> Prop :=
  | well_linked_nil : well_linked []
  | well_linked_cons s reg :
      well_linked reg ->
      lookup_revision reg (revision s) = None ->
      (forall d, down_revision s = Some d -> is_Some (lookup_revision reg d)) ->
      well_linked (s :: reg).

(** A revision the registry can be at: the base ([None]) or a registered
    revision. *)
Definition known (reg : Registry) (a : option string) : Prop :=
  match a with
  | None => True
  | Some r => is_Some (lookup_revision reg r)
  end.

Definition is_root (s : MigrationStep) : Prop := down_revision s = None.

#[global] Instance is_root_dec s : Decision (is_root s).
Proof. unfold is_root. apply _. Defined.

(** The steps with [down_revision = None]. *)
Definition roots (reg : Registry) : list MigrationStep := filter is_root reg.

(** The same script under another predecessor. *)
Definition relink (d : option string) (s : MigrationStep) : MigrationStep :=
  mkStep (revision s) d (branch_labels s) (depends_on s)
    (upgrade s) (downgrade s).

(** What the schema says about table [t] is the same in [s] and [s']. *)
Definition same_table (t : string) (s s' : Schema) : Prop :=
  (t ∈ tables s <-> t ∈ tables s') /\
  (forall c, columns s !! (t, c) = columns s' !! (t, c)) /\
  (forall n, constraints s !! (t, n) = constraints s' !! (t, n)).

(** A database with [posts(id, title)] only: no [users] table. *)
Definition posts_only_schema : Schema := {|
  tables := {["posts"]};
  columns :=
    <[("posts", "id") := mkColumn "id" Integer false None]>
      (<[("posts", "title") := mkColumn "title" String_ false None]> ∅);
  constraints := ∅
|}.

(** A root revision with no edits of its own, standing for the revision
    the content script revises. *)
Definition root_fa8d6eac1730 : MigrationStep :=
  mkStep "fa8d6eac1730" None None None [] [].

(** The chain of the specification's scenario: a root R1, the content
    script as R2 revising R1, the owner_id script as R3 relinked to revise
    R2.  Most recently registered first. *)
Definition scenario_R3 : MigrationStep :=
  relink (Some "134d9a43f339") step_2b864134392f.

Definition scenario_chain : Registry :=
  [ scenario_R3; step_134d9a43f339; root_fa8d6eac1730 ].

(** [posts_only_schema] once [content] and then [owner_id] were added. *)
Definition posts_with_content : Schema :=
  mkSchema (tables posts_only_schema)
    (<[("posts", "content") := mkColumn "content" String_ false None]>
       (columns posts_only_schema))
    (constraints posts_only_schema).

Definition posts_with_owner_id : Schema :=
  mkSchema (tables posts_with_content)
    (<[("posts", "owner_id") := mkColumn "owner_id" Integer false None]>
       (columns posts_with_content))
    (constraints posts_with_content).

(** What a completed edit leaves behind: an added column is there as
    declared, a created foreign key is there as declared, a dropped column
    or constraint is gone. *)
Definition in_effect (s : Schema) (e : SchemaEdit) : Prop :=
  match e with
  | add_column t c => columns s !! (t, name c) = Some c
  | drop_column t c => columns s !! (t, c) = None
  | create_foreign_key n src ref locals remotes ondel =>
      constraints s !! (src, n) = Some (mkForeignKey locals ref remotes ondel)
  | drop_constraint n t => constraints s !! (t, n) = None
  end.

(** The column keys and the constraint keys the edits of a list name. *)
Definition columns_named (es : list SchemaEdit) : list (string * string) :=
  (added_columns es ++ dropped_columns es)%list.

Definition constraints_named (es : list SchemaEdit) : list (string * string) :=
  (created_constraints es ++ dropped_constraints es)%list.

(** The failure a drop edit meets when its object is not there. *)
Definition undefined_object (e : SchemaEdit) : option ExecError :=
  match e with
  | drop_column t c => Some (UndefinedColumn t c)
  | drop_constraint n t => Some (UndefinedConstraint t n)
  | add_column _ _ | create_foreign_key _ _ _ _ _ _ => None
  end.

(** [base_schema] with the [content] column as the content script declares
    it. *)
Definition base_with_content : Schema :=
  mkSchema (tables base_schema)
    (<[("posts", "content") := mkColumn "content" String_ false None]>
       (columns base_schema))
    (constraints base_schema).


(** Close a goal saying that the keys of one concrete edit are not named by
    another. *)
Ltac keys_apart :=
  simpl;
  repeat first
    [ apply Forall_nil_2
    | apply Forall_cons_2
    | apply not_elem_of_nil
    | apply not_elem_of_cons; split; [done|] ].


(** Settle the revision comparisons that the hypotheses decide. *)
Ltac settle_revisions :=
  repeat (simpl;
          first [ rewrite decide_True by done
                | rewrite decide_False by (done || congruence) ]);
  simpl.

(** ** Facts about running edits and paths *)

Section EngineFacts.
Context {State : Type}.
Variable exec : SchemaEdit -> State -> ExecError + State.

Lemma run_edits_app es1 es2 s :
  run_edits exec (es1 ++ es2) s =
  match run_edits exec es1 s with
  | (s', None) => run_edits exec es2 s'
  | (s', Some f) => (s', Some f)
  end.
Proof.
  revert s. induction es1 as [|e es1 IH]; intros s; simpl; [done|].
  destruct (exec e s); [done|]. apply IH.
Qed.

Lemma run_path_app d p1 p2 st :
  run_path exec d (p1 ++ p2) st =
  match run_path exec d p1 st with
  | (st', None) => run_path exec d p2 st'
  | (st', Some err) => (st', Some err)
  end.
Proof.
  revert st. induction p1 as [|x p1 IH]; intros st; simpl; [done|].
  destruct (run_step exec d x st) as [st' [err|]]; [done|]. apply IH.
Qed.

(** After a step that completed, ChainState is that step's. *)
Lemma run_step_ok_current d step st st' :
  run_step exec d step st = (st', None) -> current st' = completed d step.
Proof.
  unfold run_step.
  destruct (run_edits exec (edits_of d step) (schema st)) as [s' [[e c]|]];
    intros [= <-]; done.
Qed.

(** After a path that completed, ChainState is that of its last step, or
    untouched if the path was empty. *)
Lemma run_path_ok_current d path st st' :
  run_path exec d path st = (st', None) ->
  current st' = from_option (completed d) (current st) (last path).
Proof.
  revert st. induction path as [|x path IH]; intros st; simpl.
  - by intros [= <-].
  - destruct (run_step exec d x st) as [st1 [err|]] eqn:Hx; [done|].
    intros Hrest. rewrite (IH _ Hrest).
    destruct path as [|y path]; simpl.
    + by apply run_step_ok_current in Hx.
    + rewrite last_cons. by destruct (last path).
Qed.

(** A step whose second edit fails keeps what its first edit did and
    leaves ChainState alone. *)
Lemma run_step_second_edit_fails d step e1 e2 rest st s1 cause :
  edits_of d step = e1 :: e2 :: rest ->
  exec e1 (schema st) = inr s1 ->
  exec e2 s1 = inl cause ->
  run_step exec d step st =
    (mkEngine s1 (current st), Some (failure d step e2 cause)).
Proof.
  intros Hes H1 H2. unfold run_step. rewrite Hes. simpl.
  by rewrite H1, H2.
Qed.
End EngineFacts.

(** C6: partial failure.  Whenever [migrate] runs a path on which the steps
    [pre] complete and the next step's first edit succeeds while its second
    edit fails, [migrate] stops with that failure (the steps after it are
    never started), ChainState is the one the last completed step left
    (the failing step's predecessor), and the schema is the one the first
    edit produced: the step is not rolled back. *)
Theorem migrate_partial_failure {State : Type}
    (exec : SchemaEdit -> State -> ExecError + State)
    (reg : Registry) (from to : option string) (d : Direction)
    (pre post : list MigrationStep) (step : MigrationStep)
    (e1 e2 : SchemaEdit) (rest : list SchemaEdit)
    (st st' : EngineState State) (s1 : State) (cause : ExecError) :
  resolvePath reg from to = inr (d, (pre ++ step :: post)%list) ->
  run_path exec d pre st = (st', None) ->
  edits_of d step = e1 :: e2 :: rest ->
  exec e1 (schema st') = inr s1 ->
  exec e2 s1 = inl cause ->
  migrate exec reg from to st =
    (mkEngine s1 (from_option (completed d) (current st) (last pre)),
     Some (failure d step e2 cause)).
Proof.
  intros Hpath Hpre Hes H1 H2.
  assert (Hrun : run_path exec d (pre ++ step :: post) st =
                 (mkEngine s1 (current st'), Some (failure d step e2 cause))).
  { rewrite run_path_app, Hpre. simpl.
    by rewrite (run_step_second_edit_fails exec d step e1 e2 rest st' s1 cause). }
  rewrite (run_path_ok_current exec d pre st st' Hpre) in Hrun.
  unfold migrate. by rewrite Hpath.
Qed.

(** Witness for C6: on the scenario chain and a database without a [users]
    table, R1 and R2 complete, R3 adds [owner_id] and then fails to create
    the foreign key; ChainState stays at R2 and [owner_id] stays. *)
Lemma migrate_partial_failure_witness :
  migrate execute scenario_chain None (Some "2b864134392f")
    (mkEngine posts_only_schema None) =
  (mkEngine posts_with_owner_id (Some "134d9a43f339"),
   Some (ApplyFailed "2b864134392f"
           (create_foreign_key "post_user_fk" "posts" "users"
              ["owner_id"] ["id"] (Some "CASCADE"))
           (UndefinedTable "users"))).
Proof.
  apply (migrate_partial_failure execute scenario_chain None
           (Some "2b864134392f") Up
           [root_fa8d6eac1730; step_134d9a43f339] [] scenario_R3
           (add_column "posts" (mkColumn "owner_id" Integer false None))
           (create_foreign_key "post_user_fk" "posts" "users"
              ["owner_id"] ["id"] (Some "CASCADE"))
           []
           (mkEngine posts_only_schema None)
           (mkEngine posts_with_content (Some "134d9a43f339"))
           posts_with_owner_id (UndefinedTable "users"));
    vm_compute; reflexivity.
Defined.

(** ** Facts about the registry and the predecessor walk *)

Lemma lookup_revision_Some reg r s :
  lookup_revision reg r = Some s -> In s reg /\ revision s = r.
Proof.
  induction reg as [|x reg IH]; simpl; [done|].
  case_decide as Hx.
  - intros [= <-]. auto.
  - intros H. destruct (IH H). auto.
Qed.

Lemma lookup_revision_In reg s :
  In s reg -> is_Some (lookup_revision reg (revision s)).
Proof.
  induction reg as [|x reg IH]; simpl; [done|].
  intros [<-|Hin].
  - rewrite decide_True by done. eauto.
  - case_decide; eauto.
Qed.

Lemma lookup_revision_cons_known s reg r :
  lookup_revision reg (revision s) = None ->
  is_Some (lookup_revision reg r) ->
  lookup_revision (s :: reg) r = lookup_revision reg r.
Proof.
  intros Hfresh [x Hx]. simpl. case_decide as Heq; [|done].
  subst r. congruence.
Qed.

(** What [register] returns, case by case. *)
Lemma register_inr step reg reg' :
  register step reg = inr reg' ->
  reg' = step :: reg /\
  lookup_revision reg (revision step) = None /\
  (forall d, down_revision step = Some d -> is_Some (lookup_revision reg d)).
Proof.
  unfold register.
  destruct (lookup_revision reg (revision step)) eqn:Hnew; [done|].
  destruct (down_revision step) as [d|] eqn:Hd.
  - destruct (lookup_revision reg d) eqn:Hp; [|done].
    intros [= <-]. split_and!; [done..|]. intros ? [= <-]. eauto.
  - intros [= <-]. split_and!; [done..|]. done.
Qed.

Lemma registered_well_linked reg : registered reg -> well_linked reg.
Proof.
  induction 1 as [|step reg reg' _ IH Hreg]; [constructor|].
  apply register_inr in Hreg as (-> & Hnew & Hdown). by constructor.
Qed.

Lemma well_linked_registered reg : well_linked reg -> registered reg.
Proof.
  induction 1 as [|s reg _ IH Hnew Hdown]; [constructor|].
  apply (registered_step s reg); [done|].
  unfold register. rewrite Hnew.
  destruct (down_revision s) as [d|]; [|done].
  by destruct (Hdown d eq_refl) as [x ->].
Qed.

(** In a well-linked registry the predecessor of a registered step is
    known. *)
Lemma well_linked_down_known reg r s :
  well_linked reg -> lookup_revision reg r = Some s ->
  known reg (down_revision s).
Proof.
  induction 1 as [|x reg Hwl IH Hnew Hdown]; simpl; [done|].
  case_decide as Hx.
  - intros [= <-]. destruct (down_revision x) as [d|] eqn:Hd; simpl; [|done].
    destruct (Hdown d eq_refl) as [y Hy].
    case_decide; eauto.
  - intros Hr. specialize (IH Hr).
    destruct (down_revision s) as [d|]; simpl in *; [|done].
    case_decide; eauto.
Qed.

(** A walk that starts among the older steps never meets the newest one. *)
Lemma descends_older s reg a b :
  well_linked (s :: reg) -> known reg a ->
  descends (s :: reg) a b -> descends reg a b /\ known reg b.
Proof.
  intros Hwl Ha Hd. inversion Hwl as [|? ? Hwl' Hnew Hdown]; subst.
  induction Hd as [a|r x b Hr Hd IH]; [split; [constructor|done]|].
  simpl in Ha. rewrite (lookup_revision_cons_known s reg r Hnew Ha) in Hr.
  pose proof (well_linked_down_known reg r x Hwl' Hr) as Hk.
  destruct (IH Hk) as [Hd' Hb]. split; [|done].
  by apply (descends_step reg r x b).
Qed.

(** No cycles: no registered step is reached again from its predecessor. *)
Lemma well_linked_acyclic reg r s :
  well_linked reg -> lookup_revision reg r = Some s ->
  ~ descends reg (down_revision s) (Some r).
Proof.
  induction 1 as [|x reg Hwl IH Hnew Hdown]; [done|].
  assert (Hwl' : well_linked (x :: reg)) by by constructor.
  intros Hr Hd.
  pose proof (well_linked_down_known _ _ _ Hwl' Hr) as Hk.
  simpl in Hr. case_decide as Hx.
  - injection Hr as <-. subst r.
    assert (Hk' : known reg (down_revision x)).
    { destruct (down_revision x) as [d|]; simpl; [|done]. by apply Hdown. }
    destruct (descends_older x reg _ _ Hwl' Hk' Hd) as [_ [y Hy]].
    congruence.
  - pose proof (well_linked_down_known _ _ _ Hwl Hr) as Hk'.
    destruct (descends_older x reg _ _ Hwl' Hk' Hd) as [Hd' _].
    by apply (IH Hr).
Qed.

(** Soundness of the walk: it only follows predecessor pointers. *)
Lemma walk_descends reg fuel a b p :
  walk reg fuel a b = Some p -> descends reg a b.
Proof.
  revert a p. induction fuel as [|fuel IH]; intros a p; simpl.
  - case_decide; [subst; constructor|done].
  - case_decide; [subst; constructor|].
    destruct a as [r|]; [|done].
    destruct (lookup_revision reg r) as [s|] eqn:Hr; [|done].
    destruct (walk reg fuel (down_revision s) b) as [q|] eqn:Hw; [|done].
    intros _. apply (descends_step reg r s b Hr). by apply (IH _ q).
Qed.

Lemma walk_more_fuel reg fuel a b p :
  walk reg fuel a b = Some p -> walk reg (S fuel) a b = Some p.
Proof.
  revert a p. induction fuel as [|fuel IH]; intros a p.
  - simpl. case_decide; done.
  - intros H. change (walk reg (S (S fuel)) a b) with
      (if decide (a = b) then Some []
       else match a with
            | None => None
            | Some r =>
                match lookup_revision reg r with
                | None => None
                | Some s => cons s <$> walk reg (S fuel) (down_revision s) b
                end
            end).
    simpl in H. case_decide; [done|].
    destruct a as [r|]; [|done].
    destruct (lookup_revision reg r) as [s|]; [|done].
    destruct (walk reg fuel (down_revision s) b) as [q|] eqn:Hw; [|done].
    by rewrite (IH _ _ Hw).
Qed.

Lemma walk_older s reg fuel a b :
  well_linked (s :: reg) -> known reg a ->
  walk (s :: reg) fuel a b = walk reg fuel a b.
Proof.
  intros Hwl. inversion Hwl as [|? ? Hwl' Hnew Hdown]; subst.
  revert a. induction fuel as [|fuel IH]; intros a Ha; [done|].
  cbn [walk]. case_decide; [done|].
  destruct a as [r|]; [|done].
  rewrite (lookup_revision_cons_known s reg r Hnew Ha).
  destruct (lookup_revision reg r) as [x|] eqn:Hr; [|done].
  by rewrite (IH _ (well_linked_down_known reg r x Hwl' Hr)).
Qed.

(** Completeness of the walk on a well-linked registry: as many steps of
    fuel as there are registered steps reach every ancestor. *)
Lemma walk_complete reg a b :
  well_linked reg -> known reg a -> descends reg a b ->
  is_Some (walk reg (length reg) a b).
Proof.
  intros Hwl. revert a. induction Hwl as [|s reg Hwl IH Hnew Hdown]; intros a Ha Hd.
  - inversion Hd; subst; simpl; [rewrite decide_True by done; eauto|done].
  - assert (Hwl' : well_linked (s :: reg)) by by constructor.
    assert (Hold : forall a', known reg a' -> descends (s :: reg) a' b ->
              is_Some (walk (s :: reg) (length reg) a' b)).
    { intros a' Ha' Hd'. rewrite (walk_older s reg _ a' b Hwl' Ha').
      apply IH; [done|]. by apply (descends_older s reg a' b Hwl'). }
    destruct (decide (a = Some (revision s))) as [->|Hne].
    + inversion Hd as [|r x b' Hr Hd']; subst.
      * simpl. rewrite decide_True by done. eauto.
      * simpl in Hr. rewrite decide_True in Hr by done. injection Hr as <-.
        cbn [length walk]. case_decide; [eauto|].
        cbn [lookup_revision]. rewrite decide_True by done.
        assert (Hk : known reg (down_revision s)).
        { destruct (down_revision s) as [d|]; simpl; [|done]. by apply Hdown. }
        destruct (Hold _ Hk Hd') as [p ->]. simpl. eauto.
    + assert (Ha' : known reg a).
      { destruct a as [r|]; simpl in *; [|done].
        case_decide; [congruence|done]. }
      destruct (Hold a Ha' Hd) as [p Hp].
      cbn [length]. rewrite (walk_more_fuel _ _ _ _ _ Hp). eauto.
Qed.

Lemma lookup_revision_None reg r :
  lookup_revision reg r = None -> ~ In r (revision <$> reg).
Proof.
  induction reg as [|x reg IH]; simpl; [tauto|].
  case_decide as Hx; [done|]. intros H [Heq|Hin]; [done|]. by apply IH.
Qed.

Lemma well_linked_NoDup reg : well_linked reg -> NoDup (revision <$> reg).
Proof.
  induction 1 as [|s reg _ IH Hnew _]; simpl; constructor; [|done].
  rewrite list_elem_of_In. by apply lookup_revision_None.
Qed.

Lemma well_linked_In_down_known reg s :
  well_linked reg -> In s reg -> known reg (down_revision s).
Proof.
  induction 1 as [|y reg Hwl IH Hnew Hdown]; [done|].
  assert (Hlift : forall a, known reg a -> known (y :: reg) a).
  { intros [d|]; simpl; [|done]. intros. case_decide; eauto. }
  intros [->|Hin]; apply Hlift; [|by apply IH].
  destruct (down_revision s) as [d|]; simpl; [|done]. by apply Hdown.
Qed.

Lemma descends_newer s reg a b :
  well_linked (s :: reg) -> known reg a ->
  descends reg a b -> descends (s :: reg) a b.
Proof.
  intros Hwl Ha Hd. inversion Hwl as [|? ? Hwl' Hnew Hdown]; subst.
  induction Hd as [a|r x b Hr Hd IH]; [constructor|].
  apply (descends_step _ r x b).
  - by rewrite (lookup_revision_cons_known s reg r Hnew Ha).
  - apply IH. by apply (well_linked_down_known reg r x).
Qed.

(** Every known revision of a well-linked registry descends from the base. *)
Lemma well_linked_descends_base reg a :
  well_linked reg -> known reg a -> descends reg a None.
Proof.
  intros Hwl. revert a.
  induction Hwl as [|s reg Hwl IH Hnew Hdown]; intros a Ha.
  - destruct a as [r|]; [by destruct Ha|constructor].
  - assert (Hwl' : well_linked (s :: reg)) by by constructor.
    destruct a as [r|]; [|constructor].
    simpl in Ha. case_decide as Hr.
    + subst r. apply (descends_step _ _ s); [simpl; by rewrite decide_True|].
      assert (Hk : known reg (down_revision s)).
      { destruct (down_revision s) as [d|]; simpl; [|done]. by apply Hdown. }
      apply (descends_newer s reg _ _ Hwl' Hk). by apply IH.
    + apply (descends_newer s reg (Some r) None Hwl' Ha). by apply IH.
Qed.

Lemma well_linked_has_root reg :
  well_linked reg -> reg <> [] -> exists s, In s reg /\ is_root s.
Proof.
  induction 1 as [|s reg Hwl IH Hnew Hdown]; [done|]. intros _.
  destruct reg as [|x reg].
  - exists s. split; [by left|]. unfold is_root.
    destruct (down_revision s) as [d|]; [|done].
    by destruct (Hdown d eq_refl).
  - destruct IH as (root & Hin & Hroot); [done|].
    exists root. split; [by right|done].
Qed.

(** A walk that reaches an unregistered revision stops there, so it also
    stops there from every revision it passes. *)
Lemma descends_through reg a b u :
  descends reg a b -> descends reg a (Some u) ->
  lookup_revision reg u = None -> descends reg b (Some u).
Proof.
  intros Hab. induction Hab as [a|r s b Hr Hd IH]; [done|].
  intros Hu Hnone. inversion Hu as [|r' s' b' Hr' Hd']; subst; [congruence|].
  apply IH; [|done]. congruence.
Qed.

Lemma descends_end_unique reg a u v :
  descends reg a (Some u) -> lookup_revision reg u = None ->
  descends reg a (Some v) -> lookup_revision reg v = None ->
  u = v.
Proof.
  intros Hu Hun Hv Hvn.
  pose proof (descends_through reg a (Some v) u Hv Hu Hun) as H.
  inversion H; subst; [done|congruence].
Qed.

(** C7: no path between revisions that are not on the same chain.  For any
    table of steps and any two revisions [A] and [B]: if neither is reached
    from the other along predecessor pointers, [resolvePath] finds no path;
    and two revisions whose predecessor walks end at distinct unregistered
    revisions are in that situation. *)
Theorem resolvePath_not_on_same_chain (reg : Registry) (A B : option string) :
  (~ descends reg A B -> ~ descends reg B A ->
   resolvePath reg A B = inl (NoPath A B)) /\
  (forall u v,
     descends reg A (Some u) -> descends reg B (Some v) ->
     lookup_revision reg u = None -> lookup_revision reg v = None ->
     u <> v ->
     ~ descends reg A B /\ ~ descends reg B A).
Proof.
  split.
  - intros HAB HBA. unfold resolvePath.
    destruct (walk reg (length reg) B A) as [p|] eqn:Hup.
    { destruct HBA. apply (walk_descends _ _ _ _ _ Hup). }
    destruct (walk reg (length reg) A B) as [p|] eqn:Hdown; [|done].
    destruct HAB. apply (walk_descends _ _ _ _ _ Hdown).
  - intros u v HAu HBv Hu Hv Hne. split; intros Hd.
    + apply Hne.
      apply (descends_end_unique reg B u v); [|done..].
      by apply (descends_through reg A B u).
    + apply Hne.
      apply (descends_end_unique reg A u v); [done..| |done].
      by apply (descends_through reg B A v).
Qed.

(** Witness for C7: the content script and the foreign-key script of the
    versions directory point back to two different revisions that are not
    in the directory, and there is no path between them. *)
Lemma resolvePath_not_on_same_chain_witness :
  resolvePath versions (Some "134d9a43f339") (Some "2b864134392f") =
    inl (NoPath (Some "134d9a43f339") (Some "2b864134392f")).
Proof.
  destruct (resolvePath_not_on_same_chain versions
              (Some "134d9a43f339") (Some "2b864134392f")) as [Hno Hends].
  destruct (Hends "fa8d6eac1730" "edafe56964a0") as [H1 H2].
  - apply (descends_step _ _ step_134d9a43f339); [reflexivity|constructor].
  - apply (descends_step _ _ step_2b864134392f); [reflexivity|constructor].
  - reflexivity.
  - reflexivity.
  - discriminate.
  - by apply Hno.
Defined.

(** Conversely, on a registry built by [register], a revision that is
    reached along predecessor pointers always gets a path. *)
Lemma resolvePath_connected reg A B :
  registered reg -> known reg A -> known reg B ->
  (descends reg B A -> exists p, resolvePath reg A B = inr (Up, p)) /\
  (~ descends reg B A -> descends reg A B ->
   exists p, resolvePath reg A B = inr (Down, p)).
Proof.
  intros Hreg HA HB. apply registered_well_linked in Hreg.
  unfold resolvePath. split.
  - intros Hd. destruct (walk_complete reg B A Hreg HB Hd) as [p ->]. eauto.
  - intros Hn Hd.
    destruct (walk reg (length reg) B A) as [p|] eqn:Hup.
    { destruct Hn. apply (walk_descends _ _ _ _ _ Hup). }
    destruct (walk_complete reg A B Hreg HA Hd) as [p ->]. eauto.
Qed.

(** ** The registration invariant *)

(** C5, counterexample: [register] accepts a second step whose
    down_revision is null, so a registry built by successful [register]
    calls need not have exactly one root.  Here the root revision and the
    content script relinked as a root are both registered. *)
Lemma register_accepts_second_root :
  ~ (forall reg, registered reg -> reg <> [] -> exists root, roots reg = [root]).
Proof.
  intros H.
  destruct (H [relink None step_134d9a43f339; root_fa8d6eac1730])
    as [root Hroot]; [|done|discriminate Hroot].
  apply (registered_step (relink None step_134d9a43f339) [root_fa8d6eac1730]);
    [|reflexivity].
  apply (registered_step root_fa8d6eac1730 []); [constructor|reflexivity].
Qed.

(** C5, as amended: what holds after every successful [register] call.
    Each revision id appears at most once; every non-null down_revision
    refers to a registered revision; there is no cycle; the predecessor walk
    from every registered step ends at the base, past a step whose
    down_revision is null, and a non-empty registry has such a root.
    [register] fails with DuplicateRevision on a revision id that exists and
    with DanglingReference on a non-null down_revision that does not. *)
Theorem register_keeps_chain_linked (reg : Registry) :
  registered reg ->
  NoDup (revision <$> reg) /\
  (forall s d, In s reg -> down_revision s = Some d ->
     is_Some (lookup_revision reg d)) /\
  (forall r s, lookup_revision reg r = Some s ->
     ~ descends reg (down_revision s) (Some r)) /\
  (forall s, In s reg ->
     is_Some (walk reg (length reg) (Some (revision s)) None)) /\
  (reg <> [] -> exists s, In s reg /\ is_root s) /\
  (forall step, is_Some (lookup_revision reg (revision step)) ->
     register step reg = inl (DuplicateRevision (revision step))) /\
  (forall step d, lookup_revision reg (revision step) = None ->
     down_revision step = Some d -> lookup_revision reg d = None ->
     register step reg = inl (DanglingReference (revision step) d)).
Proof.
  intros Hreg. apply registered_well_linked in Hreg. split_and!.
  - by apply well_linked_NoDup.
  - intros s d Hin Hd.
    pose proof (well_linked_In_down_known reg s Hreg Hin) as Hk.
    by rewrite Hd in Hk.
  - intros r s Hr. by apply well_linked_acyclic.
  - intros s Hin.
    pose proof (lookup_revision_In reg s Hin) as Hk.
    apply walk_complete; [done..|]. by apply well_linked_descends_base.
  - by apply well_linked_has_root.
  - intros step [x Hx]. unfold register. by rewrite Hx.
  - intros step d Hnew Hd Hp. unfold register. by rewrite Hnew, Hd, Hp.
Qed.

(** Witness for C5: the scenario chain is built by three successful
    [register] calls, so it has all of the above. *)
Lemma register_keeps_chain_linked_witness :
  NoDup (revision <$> scenario_chain) /\
  (forall s d, In s scenario_chain -> down_revision s = Some d ->
     is_Some (lookup_revision scenario_chain d)) /\
  (forall r s, lookup_revision scenario_chain r = Some s ->
     ~ descends scenario_chain (down_revision s) (Some r)) /\
  (forall s, In s scenario_chain ->
     is_Some (walk scenario_chain (length scenario_chain)
                (Some (revision s)) None)) /\
  (scenario_chain <> [] -> exists s, In s scenario_chain /\ is_root s) /\
  (forall step, is_Some (lookup_revision scenario_chain (revision step)) ->
     register step scenario_chain = inl (DuplicateRevision (revision step))) /\
  (forall step d, lookup_revision scenario_chain (revision step) = None ->
     down_revision step = Some d -> lookup_revision scenario_chain d = None ->
     register step scenario_chain =
       inl (DanglingReference (revision step) d)).
Proof.
  apply (register_keeps_chain_linked scenario_chain).
  apply (registered_step scenario_R3 [step_134d9a43f339; root_fa8d6eac1730]);
    [|reflexivity].
  apply (registered_step step_134d9a43f339 [root_fa8d6eac1730]); [|reflexivity].
  apply (registered_step root_fa8d6eac1730 []); [constructor|reflexivity].
Defined.

(** The scripts of the versions directory cannot be registered on their
    own: the content script revises a revision that is not among them. *)
Lemma versions_alone_dangle :
  register_all versions [] =
    inl (DanglingReference "134d9a43f339" "fa8d6eac1730").
Proof. reflexivity. Qed.

(** ** The recording executor *)

Lemma run_edits_record es log :
  run_edits record_edit es log = ((log ++ es)%list, None).
Proof.
  revert log. induction es as [|e es IH]; intros log; simpl.
  - by rewrite (right_id_L [] app).
  - rewrite IH. by rewrite <- (assoc_L app).
Qed.

Lemma run_step_record d step log cur :
  run_step record_edit d step (mkEngine log cur) =
    (mkEngine (log ++ edits_of d step)%list (completed d step), None).
Proof. unfold run_step. simpl. by rewrite run_edits_record. Qed.

(** ** The scenario of the specification *)

(** C4, counterexample: in the versions directory the script that adds
    [owner_id] and the foreign key does not revise the content script, and
    no script has a null down_revision. *)
Lemma owner_id_step_does_not_revise_content_step :
  ~ (down_revision step_2b864134392f = Some (revision step_134d9a43f339) /\
     exists root, In root versions /\ is_root root).
Proof. intros [H _]. discriminate H. Qed.

(** C4, as amended.  Among the three scripts, the owner_id script revises
    edafe56964a0 and the content script revises fa8d6eac1730; the only
    predecessor link between two of them is from the last-columns script to
    the owner_id script, and none is a root.  For a chain registered as the
    scenario says (any root R1, the content script as R2 revising R1, the
    owner_id script as R3 relinked to revise R2): registration succeeds, the
    path from the base to R3 is R1, R2, R3 ascending and [migrate] runs
    exactly their upgrades in that order; the path from R3 to R1 is R3, R2
    descending and [migrate] runs exactly their downgrades in that order,
    each run stopping at its first failure. *)
Theorem scenario_chain_migrates_in_order (R1 : MigrationStep) :
  is_root R1 ->
  revision R1 <> "134d9a43f339" ->
  revision R1 <> "2b864134392f" ->
  let R2 := relink (Some (revision R1)) step_134d9a43f339 in
  let R3 := relink (Some (revision R2)) step_2b864134392f in
  let reg := [R3; R2; R1] in
  (down_revision step_2b864134392f = Some "edafe56964a0" /\
   down_revision step_134d9a43f339 = Some "fa8d6eac1730" /\
   down_revision step_5b5d2975fa05 = Some (revision step_2b864134392f) /\
   roots versions = []) /\
  register_all [R1; R2; R3] [] = inr reg /\
  resolvePath reg None (Some (revision R3)) = inr (Up, [R1; R2; R3]) /\
  resolvePath reg (Some (revision R3)) (Some (revision R1)) =
    inr (Down, [R3; R2]) /\
  (forall (State : Type) (exec : SchemaEdit -> State -> ExecError + State) st,
     migrate exec reg None (Some (revision R3)) st =
       run_path exec Up [R1; R2; R3] st /\
     migrate exec reg (Some (revision R3)) (Some (revision R1)) st =
       run_path exec Down [R3; R2] st) /\
  (forall log,
     migrate record_edit reg None (Some (revision R3)) (mkEngine log None) =
       (mkEngine (log ++ upgrade R1 ++ upgrade R2 ++ upgrade R3)%list
          (Some (revision R3)), None)) /\
  (forall log,
     migrate record_edit reg (Some (revision R3)) (Some (revision R1))
       (mkEngine log (Some (revision R3))) =
       (mkEngine (log ++ downgrade R3 ++ downgrade R2)%list
          (Some (revision R1)), None)).
Proof.
  intros Hroot H2 H3 R2 R3 reg. unfold is_root in Hroot.
  destruct R1 as [r1 d1 labels deps u1 dn1]. simpl in *. subst d1.
  assert (Hup : resolvePath reg None (Some "2b864134392f") =
                inr (Up, [mkStep r1 None labels deps u1 dn1; R2; R3])).
  { unfold resolvePath, reg. settle_revisions. done. }
  assert (Hdown : resolvePath reg (Some "2b864134392f") (Some r1) =
                  inr (Down, [R3; R2])).
  { unfold resolvePath, reg. settle_revisions. done. }
  split_and!; try done.
  - unfold register_all, register. settle_revisions. done.
  - intros State exec st. unfold migrate. by rewrite Hup, Hdown.
  - intros log. unfold migrate. rewrite Hup. cbn [run_path].
    rewrite !run_step_record. simpl. by rewrite <- !(assoc_L app).
  - intros log. unfold migrate. rewrite Hdown. cbn [run_path].
    rewrite !run_step_record. simpl. by rewrite <- !(assoc_L app).
Qed.

(** Witness for C4: the scenario chain over the root fa8d6eac1730. *)
Lemma scenario_chain_migrates_in_order_witness :
  register_all [root_fa8d6eac1730; step_134d9a43f339; scenario_R3] [] =
    inr scenario_chain /\
  resolvePath scenario_chain None (Some "2b864134392f") =
    inr (Up, [root_fa8d6eac1730; step_134d9a43f339; scenario_R3]) /\
  resolvePath scenario_chain (Some "2b864134392f") (Some "fa8d6eac1730") =
    inr (Down, [scenario_R3; step_134d9a43f339]).
Proof.
  destruct (scenario_chain_migrates_in_order root_fa8d6eac1730)
    as (_ & Hreg & Hup & Hdown & _).
  - reflexivity.
  - simpl. discriminate.
  - simpl. discriminate.
  - split; [exact Hreg|]. split; [exact Hup|exact Hdown].
Defined.

(** ** The foreign-key script *)

(** C1: the downgrade of the foreign-key script does not undo its upgrade.
    The upgrade creates the constraint [post_user_fk]; the downgrade drops
    [post_users_fk].  Migrating a database up across the script succeeds;
    migrating it back down fails at the first edit, and [owner_id] and
    [post_user_fk] are still there. *)
Theorem fk_downgrade_names_another_constraint :
  created_constraints (upgrade step_2b864134392f) =
    [("posts", "post_user_fk")] /\
  dropped_constraints (downgrade step_2b864134392f) =
    [("posts", "post_users_fk")] /\
  inverse_sequence (upgrade step_2b864134392f) =
    Some [drop_constraint "post_user_fk" "posts";
          drop_column "posts" "owner_id"] /\
  inverse_sequence (upgrade step_2b864134392f) <>
    Some (downgrade step_2b864134392f) /\
  let st0 := mkEngine base_schema (Some "edafe56964a0") in
  let up :=
    migrate execute versions (Some "edafe56964a0") (Some "2b864134392f") st0 in
  let down :=
    migrate execute versions (Some "2b864134392f") (Some "edafe56964a0")
      (fst up) in
  snd up = None /\
  current (fst up) = Some "2b864134392f" /\
  snd down =
    Some (RevertFailed "2b864134392f"
            (drop_constraint "post_users_fk" "posts")
            (UndefinedConstraint "posts" "post_users_fk")) /\
  current (fst down) = Some "2b864134392f" /\
  columns (schema (fst down)) !! ("posts", "owner_id") =
    Some (mkColumn "owner_id" Integer false None) /\
  constraints (schema (fst down)) !! ("posts", "post_user_fk") =
    Some (mkForeignKey ["owner_id"] "users" ["id"] (Some "CASCADE")) /\
  columns base_schema !! ("posts", "owner_id") = None /\
  constraints base_schema !! ("posts", "post_user_fk") = None.
Proof.
  do 4 (split; [try (vm_compute; reflexivity)|]).
  - vm_compute. discriminate.
  - intros st0 up down. split_and!; vm_compute; reflexivity.
Qed.

(** ** Order of the edits of a downgrade *)

(** C2, counterexample: reverting the last-columns script drops
    [published] first, while [created_at] is the column its upgrade added
    last. *)
Lemma last_added_column_is_not_first_dropped :
  ~ (forall step, In step versions ->
       last (added_columns (upgrade step)) =
       head (dropped_columns
               (schema (fst (revert record_edit step (mkEngine [] None)))))).
Proof.
  intros H.
  specialize (H step_5b5d2975fa05 (or_intror (or_intror (or_introl eq_refl)))).
  vm_compute in H. discriminate H.
Qed.

(** C2, as amended: [revert] executes the edits of a script's downgrade in
    the order they are declared.  For the content script and the owner_id
    script the last column added is the first column dropped (each adds one
    column; the owner_id script drops its constraint before its column).
    The last-columns script drops its columns in the order its upgrade
    added them: [published] is added first and dropped first, [created_at]
    is added last and dropped last. *)
Theorem revert_runs_downgrade_in_declaration_order :
  (forall step log cur,
     revert record_edit step (mkEngine log cur) =
       (mkEngine (log ++ downgrade step)%list (down_revision step), None)) /\
  last (added_columns (upgrade step_134d9a43f339)) =
    head (dropped_columns (downgrade step_134d9a43f339)) /\
  last (added_columns (upgrade step_2b864134392f)) =
    head (dropped_columns (downgrade step_2b864134392f)) /\
  downgrade step_2b864134392f =
    [drop_constraint "post_users_fk" "posts"; drop_column "posts" "owner_id"] /\
  dropped_columns (downgrade step_5b5d2975fa05) =
    added_columns (upgrade step_5b5d2975fa05) /\
  head (added_columns (upgrade step_5b5d2975fa05)) =
    Some ("posts", "published") /\
  head (dropped_columns (downgrade step_5b5d2975fa05)) =
    Some ("posts", "published") /\
  last (added_columns (upgrade step_5b5d2975fa05)) =
    Some ("posts", "created_at") /\
  last (dropped_columns (downgrade step_5b5d2975fa05)) =
    Some ("posts", "created_at").
Proof.
  split_and!; try reflexivity.
  intros step log cur. apply (run_step_record Down).
Qed.

(** ** Columns without a default *)

(** C3, counterexample: the content script is in the versions directory and
    its upgrade adds a NOT NULL column without a server default. *)
Lemma content_step_adds_required_column_without_default :
  ~ (forall step, In step versions ->
       forall e, In e (upgrade step) -> required_without_default e = false).
Proof.
  intros H.
  specialize (H step_134d9a43f339 (or_introl eq_refl) _ (or_introl eq_refl)).
  vm_compute in H. discriminate H.
Qed.

(** C3, as amended: nothing checks a step's edits when it is built or
    registered.  [register] accepts or rejects a step on its revision ids
    alone and stores an accepted step as it is.  Of the three scripts, the
    content script and the owner_id script add a NOT NULL column without a
    default, and the content script registers on top of the revision it
    revises; only the last-columns script gives its NOT NULL columns
    defaults. *)
Theorem steps_adding_required_columns_without_default :
  filter (fun s => existsb required_without_default (upgrade s) = true)
    versions = [step_134d9a43f339; step_2b864134392f] /\
  forallb (fun e => negb (required_without_default e))
    (upgrade step_5b5d2975fa05) = true /\
  register step_134d9a43f339 [root_fa8d6eac1730] =
    inr [step_134d9a43f339; root_fa8d6eac1730] /\
  (forall reg r d labels deps up down,
     match register (mkStep r d labels deps up down) reg with
     | inl err => register (mkStep r d labels deps [] []) reg = inl err
     | inr reg' =>
         reg' = mkStep r d labels deps up down :: reg /\
         register (mkStep r d labels deps [] []) reg =
           inr (mkStep r d labels deps [] [] :: reg)
     end).
Proof.
  split_and!; try reflexivity.
  intros reg r d labels deps up down. unfold register. simpl.
  destruct (lookup_revision reg r); [done|].
  destruct d as [d|]; [|done].
  by destruct (lookup_revision reg d).
Qed.

(** ** Facts about the reference executor *)

Lemma execute_add_column_inr s t c s1 :
  execute (add_column t c) s = inr s1 ->
  t ∈ tables s /\ columns s !! (t, name c) = None /\
  s1 = mkSchema (tables s) (<[(t, name c) := c]> (columns s)) (constraints s).
Proof.
  simpl. case_decide; [|done].
  destruct (columns s !! (t, name c)) eqn:Hc; [done|].
  by intros [= <-].
Qed.

Lemma execute_drop_column_present s t c :
  t ∈ tables s -> is_Some (columns s !! (t, c)) ->
  execute (drop_column t c) s =
    inr (mkSchema (tables s) (delete (t, c) (columns s)) (constraints s)).
Proof.
  intros Ht [x Hx]. simpl. rewrite decide_True by done. by rewrite Hx.
Qed.

(** An edit leaves every table other than its own as it was. *)
Lemma execute_frame e s s1 t :
  execute e s = inr s1 -> edit_table e <> t -> same_table t s s1.
Proof.
  intros Hexec Hne.
  destruct e as [t' c|t' c|n src ref locals remotes ondel|n t'];
    simpl in Hexec, Hne.
  - apply execute_add_column_inr in Hexec as (_ & _ & ->).
    split_and!; simpl; [done| |done].
    intros c'. rewrite lookup_insert_ne; [done|congruence].
  - case_decide; [|done].
    destruct (columns s !! (t', c)); [|done]. injection Hexec as <-.
    split_and!; simpl; [done| |done].
    intros c'. rewrite lookup_delete_ne; [done|congruence].
  - case_decide; [|done]. case_decide; [|done].
    destruct (missing_column s src locals); [done|].
    destruct (missing_column s ref remotes); [done|].
    destruct (constraints s !! (src, n)); [done|]. injection Hexec as <-.
    split_and!; simpl; [done..|].
    intros n'. rewrite lookup_insert_ne; [done|congruence].
  - case_decide; [|done].
    destruct (constraints s !! (t', n)); [|done]. injection Hexec as <-.
    split_and!; simpl; [done..|].
    intros n'. rewrite lookup_delete_ne; [done|congruence].
Qed.

Lemma same_table_refl t s : same_table t s s.
Proof. by split_and!. Qed.

Lemma same_table_trans t s1 s2 s3 :
  same_table t s1 s2 -> same_table t s2 s3 -> same_table t s1 s3.
Proof.
  intros (Ht & Hc & Hn) (Ht' & Hc' & Hn'). split_and!.
  - by rewrite Ht.
  - intros c. by rewrite Hc.
  - intros n. by rewrite Hn.
Qed.

(** A body whose edits all alter other tables leaves [t] as it was, whether
    it completes or stops at a failure. *)
Lemma run_edits_frame es s t :
  Forall (fun e => edit_table e <> t) es ->
  same_table t s (fst (run_edits execute es s)).
Proof.
  intros Hes. revert s. induction Hes as [|e es He _ IH]; intros s; simpl.
  - apply same_table_refl.
  - destruct (execute e s) as [err|s1] eqn:Hexec; simpl.
    + apply same_table_refl.
    + apply (same_table_trans t s s1); [|apply IH].
      by apply (execute_frame e).
Qed.

Lemma run_step_schema {State : Type}
    (exec : SchemaEdit -> State -> ExecError + State) d step st :
  schema (fst (run_step exec d step st)) =
  fst (run_edits exec (edits_of d step) (schema st)).
Proof.
  unfold run_step.
  by destruct (run_edits exec (edits_of d step) (schema st)) as [s' [[e c]|]].
Qed.

(** ** Column scripts: apply, then revert *)

(** C8: for the content script and the last-columns script, the
    (table, column) pairs the downgrade drops are the pairs the upgrade
    adds, and reverting the script after applying it gives back the schema
    it was applied to. *)
Theorem column_steps_round_trip (step : MigrationStep) :
  In step [step_134d9a43f339; step_5b5d2975fa05] ->
  (list_to_set (dropped_columns (downgrade step)) : gset (string * string)) =
    list_to_set (added_columns (upgrade step)) /\
  (forall s cur st',
     apply execute step (mkEngine s cur) = (st', None) ->
     revert execute step st' = (mkEngine s (down_revision step), None)).
Proof.
  intros [<-|[<-|[]]].
  - split; [done|].
    intros s cur st'. unfold apply, revert, run_step. simpl edits_of.
    cbn [run_edits schema].
    destruct (execute (add_column "posts" (mkColumn "content" String_ false None)) s)
      as [err|s1] eqn:H1; [done|]. intros [= <-]. cbn [schema].
    apply execute_add_column_inr in H1 as (Ht & Hc & ->).
    cbn [name] in *.
    rewrite execute_drop_column_present;
      [|done|cbn [columns]; rewrite lookup_insert_eq; eauto].
    cbn [tables columns constraints].
    rewrite delete_insert_id by done. by destruct s.
  - split.
    { simpl. apply set_eq. intros x. set_solver. }
    intros s cur st'. unfold apply, revert, run_step. simpl edits_of.
    cbn [run_edits schema].
    destruct (execute (add_column "posts"
                (mkColumn "published" Boolean false (Some (literal "TRUE")))) s)
      as [err|s1] eqn:H1; [done|].
    destruct (execute (add_column "posts"
                (mkColumn "created_at" (TIMESTAMP true) false
                   (Some (text "NOW()")))) s1)
      as [err|s2] eqn:H2; [done|]. intros [= <-]. cbn [schema].
    apply execute_add_column_inr in H1 as (Ht & Hc & ->).
    apply execute_add_column_inr in H2 as (_ & Hc' & ->).
    cbn [name tables columns constraints] in *.
    rewrite lookup_insert_ne in Hc' by done.
    rewrite execute_drop_column_present;
      [|done
       |cbn [columns]; rewrite lookup_insert_ne by done;
        rewrite lookup_insert_eq; eauto].
    cbn [tables columns constraints].
    rewrite delete_insert_ne by done. rewrite delete_insert_id by done.
    rewrite execute_drop_column_present;
      [|done|cbn [columns]; rewrite lookup_insert_eq; eauto].
    cbn [tables columns constraints].
    rewrite delete_insert_id by done. by destruct s.
Qed.

(** Witness for C8: the content column added to and dropped from the base
    schema. *)
Lemma column_steps_round_trip_witness :
  revert execute step_134d9a43f339
    (fst (apply execute step_134d9a43f339
            (mkEngine base_schema (Some "fa8d6eac1730")))) =
  (mkEngine base_schema (Some "fa8d6eac1730"), None).
Proof.
  destruct (column_steps_round_trip step_134d9a43f339) as [_ H].
  - simpl. left. reflexivity.
  - apply (H base_schema (Some "fa8d6eac1730")). vm_compute. reflexivity.
Defined.

(** ** Frame: only [posts] is altered *)

(** C9: every edit of every upgrade and downgrade of the three scripts
    alters the [posts] table, and applying or reverting any of them, to
    completion or up to a failure, leaves what the schema says about any
    other table unchanged ([users] included: the foreign key only points at
    it). *)
Theorem steps_alter_only_posts (step : MigrationStep) (t : string)
    (s : Schema) (cur : option string) :
  In step versions ->
  t <> "posts" ->
  Forall (fun e => edit_table e = "posts") (upgrade step ++ downgrade step) /\
  same_table t s (schema (fst (apply execute step (mkEngine s cur)))) /\
  same_table t s (schema (fst (revert execute step (mkEngine s cur)))).
Proof.
  intros Hin Ht.
  assert (Hall : Forall (fun e => edit_table e = "posts")
                   (upgrade step ++ downgrade step)).
  { destruct Hin as [<-|[<-|[<-|[]]]]; repeat constructor. }
  split; [done|].
  apply Forall_app in Hall as [Hup Hdown].
  unfold apply, revert. rewrite !run_step_schema. cbn [schema edits_of].
  split; apply run_edits_frame;
    (eapply Forall_impl; [eassumption|]); simpl; intros e He; congruence.
Qed.

(** Witness for C9: the foreign-key script on the base schema leaves
    [users] as it was. *)
Lemma steps_alter_only_posts_witness :
  Forall (fun e => edit_table e = "posts")
    (upgrade step_2b864134392f ++ downgrade step_2b864134392f) /\
  same_table "users" base_schema
    (schema (fst (apply execute step_2b864134392f
                    (mkEngine base_schema (Some "edafe56964a0"))))) /\
  same_table "users" base_schema
    (schema (fst (revert execute step_2b864134392f
                    (mkEngine base_schema (Some "edafe56964a0"))))).
Proof.
  apply (steps_alter_only_posts step_2b864134392f "users" base_schema
           (Some "edafe56964a0")).
  - simpl. right. left. reflexivity.
  - discriminate.
Defined.

(** ** The foreign key's local column *)

(** C10: in the upgrade of the foreign-key script the [add_column] of
    [owner_id] comes before the [create_foreign_key] whose local column is
    [owner_id].  Whenever the column edit has succeeded, the constraint edit
    finds its local column, so applying the script never fails for a
    missing local column; the same constraint edit on a schema without the
    column does fail that way. *)
Theorem owner_id_exists_when_fk_is_created :
  upgrade step_2b864134392f !! 0 =
    Some (add_column "posts" (mkColumn "owner_id" Integer false None)) /\
  upgrade step_2b864134392f !! 1 =
    Some (create_foreign_key "post_user_fk" "posts" "users"
            ["owner_id"] ["id"] (Some "CASCADE")) /\
  (forall s s1,
     execute (add_column "posts" (mkColumn "owner_id" Integer false None)) s =
       inr s1 ->
     missing_column s1 "posts" ["owner_id"] = None) /\
  (forall s cur rev e t c,
     snd (apply execute step_2b864134392f (mkEngine s cur)) <>
       Some (ApplyFailed rev e (MissingLocalColumn t c))) /\
  execute (create_foreign_key "post_user_fk" "posts" "users"
             ["owner_id"] ["id"] (Some "CASCADE")) base_schema =
    inl (MissingLocalColumn "posts" "owner_id").
Proof.
  assert (Hcol : forall s s1,
     execute (add_column "posts" (mkColumn "owner_id" Integer false None)) s =
       inr s1 ->
     missing_column s1 "posts" ["owner_id"] = None).
  { intros s s1 H. apply execute_add_column_inr in H as (_ & _ & ->).
    unfold missing_column. cbn [list_find columns name].
    rewrite lookup_insert_eq. by rewrite decide_False by done. }
  split_and!; [reflexivity|reflexivity|exact Hcol| |by vm_compute].
  intros s cur rev e t c. unfold apply, run_step. simpl edits_of.
  cbn [run_edits schema].
  destruct (execute (add_column "posts"
              (mkColumn "owner_id" Integer false None)) s)
    as [err|s1] eqn:H1.
  - simpl in H1. case_decide; [|by injection H1 as <-].
    destruct (columns s !! ("posts", "owner_id")); [|done].
    by injection H1 as <-.
  - pose proof (Hcol s s1 H1) as Hmiss.
    cbn [execute]. rewrite Hmiss.
    repeat case_decide; try done.
    destruct (missing_column s1 "users" ["id"]); [done|].
    by destruct (constraints s1 !! ("posts", "post_user_fk")).
Qed.

(** Witness for C10: on the base schema the column edit succeeds and the
    constraint edit then finds [owner_id]. *)
Lemma owner_id_exists_when_fk_is_created_witness :
  missing_column
    (mkSchema (tables base_schema)
       (<[("posts", "owner_id") := mkColumn "owner_id" Integer false None]>
          (columns base_schema))
       (constraints base_schema))
    "posts" ["owner_id"] = None.
Proof.
  destruct owner_id_exists_when_fk_is_created as (_ & _ & Hcol & _).
  apply (Hcol base_schema). vm_compute. reflexivity.
Defined.

(** ** The scenario on the reference executor *)

(** Upgrading the scenario chain from the base on a database with [posts]
    and [users] completes at R3 with both columns and the constraint. *)
Example scenario_upgrade_completes :
  let r := migrate execute scenario_chain None (Some "2b864134392f")
             (mkEngine base_schema None) in
  snd r = None /\
  current (fst r) = Some "2b864134392f" /\
  is_Some (columns (schema (fst r)) !! ("posts", "content")) /\
  is_Some (columns (schema (fst r)) !! ("posts", "owner_id")) /\
  is_Some (constraints (schema (fst r)) !! ("posts", "post_user_fk")).
Proof. vm_compute. split_and!; eauto. Qed.

(** Downgrading it again to R1 stops in R3, at the constraint that was
    never created; nothing is reverted. *)
Example scenario_downgrade_stops_in_R3 :
  let up := migrate execute scenario_chain None (Some "2b864134392f")
              (mkEngine base_schema None) in
  migrate execute scenario_chain (Some "2b864134392f") (Some "fa8d6eac1730")
    (fst up) =
  (fst up,
   Some (RevertFailed "2b864134392f"
           (drop_constraint "post_users_fk" "posts")
           (UndefinedConstraint "posts" "post_users_fk"))).
Proof. vm_compute. reflexivity. Qed.

(** [register] also accepts a second successor of a registered step. *)
Example register_accepts_branch :
  register (relink (Some "fa8d6eac1730") step_5b5d2975fa05)
    [step_134d9a43f339; root_fa8d6eac1730] =
  inr [relink (Some "fa8d6eac1730") step_5b5d2975fa05;
       step_134d9a43f339; root_fa8d6eac1730].
Proof. reflexivity. Qed.

(** ** What the edits of a body leave alone *)

Lemma execute_tables e s s1 : execute e s = inr s1 -> tables s1 = tables s.
Proof.
  destruct e as [t c|t c|n src ref locals remotes ondel|n t]; simpl;
    repeat case_decide; try done.
  - destruct (columns s !! (t, name c)); [done|]. by intros [= <-].
  - destruct (columns s !! (t, c)); [|done]. by intros [= <-].
  - destruct (missing_column s src locals); [done|].
    destruct (missing_column s ref remotes); [done|].
    destruct (constraints s !! (src, n)); [done|]. by intros [= <-].
  - destruct (constraints s !! (t, n)); [|done]. by intros [= <-].
Qed.

Lemma execute_columns_other e s s1 k :
  execute e s = inr s1 -> k ∉ columns_named [e] ->
  columns s1 !! k = columns s !! k.
Proof.
  destruct e as [t c|t c|n src ref locals remotes ondel|n t]; simpl;
    repeat case_decide; try done.
  - destruct (columns s !! (t, name c)); [done|]. intros [= <-] Hk. simpl.
    apply lookup_insert_ne. set_solver.
  - destruct (columns s !! (t, c)); [|done]. intros [= <-] Hk. simpl.
    apply lookup_delete_ne. set_solver.
  - destruct (missing_column s src locals); [done|].
    destruct (missing_column s ref remotes); [done|].
    destruct (constraints s !! (src, n)); [done|]. by intros [= <-].
  - destruct (constraints s !! (t, n)); [|done]. by intros [= <-].
Qed.

Lemma execute_constraints_other e s s1 k :
  execute e s = inr s1 -> k ∉ constraints_named [e] ->
  constraints s1 !! k = constraints s !! k.
Proof.
  destruct e as [t c|t c|n src ref locals remotes ondel|n t]; simpl;
    repeat case_decide; try done.
  - destruct (columns s !! (t, name c)); [done|]. by intros [= <-].
  - destruct (columns s !! (t, c)); [|done]. by intros [= <-].
  - destruct (missing_column s src locals); [done|].
    destruct (missing_column s ref remotes); [done|].
    destruct (constraints s !! (src, n)); [done|]. intros [= <-] Hk. simpl.
    apply lookup_insert_ne. set_solver.
  - destruct (constraints s !! (t, n)); [|done]. intros [= <-] Hk. simpl.
    apply lookup_delete_ne. set_solver.
Qed.

Lemma columns_named_cons e es k :
  k ∉ columns_named (e :: es) ->
  (k ∉ columns_named [e]) /\ (k ∉ columns_named es).
Proof.
  assert (Ha : added_columns (e :: es) =
               (added_columns [e] ++ added_columns es)%list)
    by (by destruct e).
  assert (Hd : dropped_columns (e :: es) =
               (dropped_columns [e] ++ dropped_columns es)%list)
    by (by destruct e).
  unfold columns_named. rewrite Ha, Hd, !not_elem_of_app. tauto.
Qed.

Lemma constraints_named_cons e es k :
  k ∉ constraints_named (e :: es) ->
  (k ∉ constraints_named [e]) /\ (k ∉ constraints_named es).
Proof.
  assert (Ha : created_constraints (e :: es) =
               (created_constraints [e] ++ created_constraints es)%list)
    by (by destruct e).
  assert (Hd : dropped_constraints (e :: es) =
               (dropped_constraints [e] ++ dropped_constraints es)%list)
    by (by destruct e).
  unfold constraints_named. rewrite Ha, Hd, !not_elem_of_app. tauto.
Qed.

(** A body, run to completion or up to a failure, keeps the set of tables
    and every column and constraint that none of its edits names. *)
Lemma run_edits_untouched es s :
  tables (fst (run_edits execute es s)) = tables s /\
  (forall k, k ∉ columns_named es ->
     columns (fst (run_edits execute es s)) !! k = columns s !! k) /\
  (forall k, k ∉ constraints_named es ->
     constraints (fst (run_edits execute es s)) !! k = constraints s !! k).
Proof.
  revert s. induction es as [|e es IH]; intros s; simpl; [done|].
  destruct (execute e s) as [err|s1] eqn:He; simpl; [done|].
  destruct (IH s1) as (Ht & Hc & Hn). split_and!.
  - rewrite Ht. by apply (execute_tables e).
  - intros k Hk. apply columns_named_cons in Hk as [Hk1 Hk2].
    rewrite (Hc k Hk2). by apply (execute_columns_other e).
  - intros k Hk. apply constraints_named_cons in Hk as [Hk1 Hk2].
    rewrite (Hn k Hk2). by apply (execute_constraints_other e).
Qed.



(** ** When an edit succeeds *)

Lemma execute_add_column_iff s t c s1 :
  execute (add_column t c) s = inr s1 <->
  t ∈ tables s /\ columns s !! (t, name c) = None /\
  s1 = mkSchema (tables s) (<[(t, name c) := c]> (columns s)) (constraints s).
Proof.
  split; [apply execute_add_column_inr|].
  intros (Ht & Hc & ->). simpl. rewrite decide_True by done. by rewrite Hc.
Qed.

Lemma execute_drop_column_iff s t c s1 :
  execute (drop_column t c) s = inr s1 <->
  t ∈ tables s /\ is_Some (columns s !! (t, c)) /\
  s1 = mkSchema (tables s) (delete (t, c) (columns s)) (constraints s).
Proof.
  split.
  - simpl. case_decide; [|done].
    destruct (columns s !! (t, c)) eqn:Hc; [|done]. intros [= <-]. eauto.
  - intros (Ht & Hc & ->). by apply execute_drop_column_present.
Qed.

Lemma execute_create_foreign_key_iff s n src ref locals remotes ondel s1 :
  execute (create_foreign_key n src ref locals remotes ondel) s = inr s1 <->
  src ∈ tables s /\ ref ∈ tables s /\
  missing_column s src locals = None /\
  missing_column s ref remotes = None /\
  constraints s !! (src, n) = None /\
  s1 = mkSchema (tables s) (columns s)
         (<[(src, n) := mkForeignKey locals ref remotes ondel]>
            (constraints s)).
Proof.
  split.
  - simpl. case_decide; [|done]. case_decide; [|done].
    destruct (missing_column s src locals) eqn:Hl; [done|].
    destruct (missing_column s ref remotes) eqn:Hr; [done|].
    destruct (constraints s !! (src, n)) eqn:Hn; [done|].
    by intros [= <-].
  - intros (Hs & Hr & Hl & Hm & Hn & ->). simpl.
    rewrite !decide_True by done. by rewrite Hl, Hm, Hn.
Qed.

Lemma execute_drop_constraint_iff s n t s1 :
  execute (drop_constraint n t) s = inr s1 <->
  t ∈ tables s /\ is_Some (constraints s !! (t, n)) /\
  s1 = mkSchema (tables s) (columns s) (delete (t, n) (constraints s)).
Proof.
  split.
  - simpl. case_decide; [|done].
    destruct (constraints s !! (t, n)) eqn:Hc; [|done]. intros [= <-]. eauto.
  - intros (Ht & [x Hx] & ->). simpl.
    rewrite decide_True by done. by rewrite Hx.
Qed.


Lemma run_edits_ok_cons {State : Type}
    (exec : SchemaEdit -> State -> ExecError + State) e es s s2 :
  run_edits exec (e :: es) s = (s2, None) <->
  exists s1, exec e s = inr s1 /\ run_edits exec es s1 = (s2, None).
Proof.
  simpl. destruct (exec e s) as [err|s1].
  - split; [done|]. by intros (s1 & ? & _).
  - split; [eauto|]. by intros (s1' & [= <-] & H).
Qed.

Lemma run_step_ok_iff {State : Type}
    (exec : SchemaEdit -> State -> ExecError + State) d step st st' :
  run_step exec d step st = (st', None) <->
  run_edits exec (edits_of d step) (schema st) = (schema st', None) /\
  current st' = completed d step.
Proof.
  unfold run_step.
  destruct (run_edits exec (edits_of d step) (schema st)) as [s' [[e c]|]].
  - split; [done|]. by intros [? _].
  - split.
    + by intros [= <-].
    + intros [[= ->] Hc]. destruct st' as [s c]. simpl in *. by subst.
Qed.


(** ** When a script applies and when it reverts *)



(** ** What a completed body leaves behind *)

Lemma execute_in_effect e s s1 : execute e s = inr s1 -> in_effect s1 e.
Proof.
  destruct e as [t c|t c|n src ref locals remotes ondel|n t]; intros H.
  - apply execute_add_column_iff in H as (_ & _ & ->).
    apply lookup_insert_eq.
  - apply execute_drop_column_iff in H as (_ & _ & ->).
    apply lookup_delete_eq.
  - apply execute_create_foreign_key_iff in H as (_ & _ & _ & _ & _ & ->).
    apply lookup_insert_eq.
  - apply execute_drop_constraint_iff in H as (_ & _ & ->).
    apply lookup_delete_eq.
Qed.

(** An edit stays in effect across a later edit that names other objects. *)
Lemma in_effect_preserved e e' s1 s2 :
  execute e' s1 = inr s2 -> in_effect s1 e ->
  Forall (fun k => k ∉ columns_named [e']) (columns_named [e]) ->
  Forall (fun k => k ∉ constraints_named [e']) (constraints_named [e]) ->
  in_effect s2 e.
Proof.
  intros He' He Hc Hn.
  destruct e as [t c|t c|n src ref locals remotes ondel|n t];
    simpl in He, Hc, Hn |- *.
  - apply Forall_cons_1 in Hc as [Hk _].
    by rewrite (execute_columns_other e' s1 s2 _ He' Hk).
  - apply Forall_cons_1 in Hc as [Hk _].
    by rewrite (execute_columns_other e' s1 s2 _ He' Hk).
  - apply Forall_cons_1 in Hn as [Hk _].
    by rewrite (execute_constraints_other e' s1 s2 _ He' Hk).
  - apply Forall_cons_1 in Hn as [Hk _].
    by rewrite (execute_constraints_other e' s1 s2 _ He' Hk).
Qed.

Lemma versions_edits_in_effect step d s s' :
  In step versions ->
  run_edits execute (edits_of d step) s = (s', None) ->
  Forall (in_effect s') (edits_of d step).
Proof.
  intros Hin Hrun.
  destruct Hin as [<-|[<-|[<-|[]]]]; destruct d; simpl edits_of in *;
    apply run_edits_ok_cons in Hrun as (s1 & H1 & Hrun);
    try (apply run_edits_ok_cons in Hrun as (s2 & H2 & Hrun));
    injection Hrun as <-;
    repeat apply Forall_cons_2; try apply Forall_nil_2;
    try (by apply (execute_in_effect _ _ _ H1));
    try (by apply (execute_in_effect _ _ _ H2));
    (eapply in_effect_preserved;
     [exact H2 | by apply (execute_in_effect _ _ _ H1) | keys_apart..]).
Qed.

(** Every body of the three scripts starts with an edit of [posts], so it
    completes only where [posts] exists. *)
Lemma versions_body_needs_posts step d s cur st' :
  In step versions ->
  run_step execute d step (mkEngine s cur) = (st', None) ->
  "posts" ∈ tables s.
Proof.
  intros Hin Hrun. apply run_step_ok_iff in Hrun as [Hrun _].
  cbn [schema] in Hrun.
  destruct Hin as [<-|[<-|[<-|[]]]]; destruct d; simpl edits_of in *;
    apply run_edits_ok_cons in Hrun as (s1 & H1 & _).
  all: first [ apply execute_add_column_iff in H1 as (Ht & _)
             | apply execute_drop_column_iff in H1 as (Ht & _)
             | apply execute_drop_constraint_iff in H1 as (Ht & _) ];
    exact Ht.
Qed.

Lemma run_step_tables step d st :
  tables (schema (fst (run_step execute d step st))) = tables (schema st).
Proof.
  rewrite run_step_schema.
  by destruct (run_edits_untouched (edits_of d step) (schema st)) as [Ht _].
Qed.

Lemma execute_add_column_duplicate s t c :
  t ∈ tables s -> is_Some (columns s !! (t, name c)) ->
  execute (add_column t c) s = inl (DuplicateColumn t (name c)).
Proof.
  intros Ht [x Hx]. simpl. rewrite decide_True by done. by rewrite Hx.
Qed.

(** X6: when applying or reverting one of the three scripts completes, on
    any schema, ChainState is the script's revision (after apply) or its
    down_revision (after revert), and every edit of the body is in effect in
    the resulting schema: each added column and created foreign key is
    there exactly as declared, each dropped column and constraint is gone;
    no later edit of the body undoes an earlier one. *)
Theorem completed_body_is_in_effect (step : MigrationStep) (d : Direction)
    (s : Schema) (cur : option string) (st' : EngineState Schema) :
  In step versions ->
  run_step execute d step (mkEngine s cur) = (st', None) ->
  current st' = completed d step /\
  Forall (in_effect (schema st')) (edits_of d step).
Proof.
  intros Hin Hrun.
  apply run_step_ok_iff in Hrun as [Hrun Hcur]. cbn [schema] in Hrun.
  split; [exact Hcur|].
  by apply (versions_edits_in_effect step d s).
Qed.

(** Witness for X6: the foreign-key script applied to the base schema. *)
Lemma completed_body_is_in_effect_witness :
  current (fst (apply execute step_2b864134392f (mkEngine base_schema None)))
    = Some "2b864134392f" /\
  Forall (in_effect
            (schema (fst (apply execute step_2b864134392f
                            (mkEngine base_schema None)))))
    (upgrade step_2b864134392f).
Proof.
  apply (completed_body_is_in_effect step_2b864134392f Up base_schema None).
  - simpl. right. left. reflexivity.
  - vm_compute. reflexivity.
Defined.

(** ** Running an upgrade twice *)

(** X4: none of the three upgrades can be run twice.  On any schema, once
    applying a script has completed, applying it again fails at its first
    edit with DuplicateColumn for the first column the script adds, and
    changes neither the schema nor ChainState. *)
Theorem upgrade_is_not_repeatable (step : MigrationStep) (s : Schema)
    (cur : option string) (st' : EngineState Schema) :
  In step versions ->
  apply execute step (mkEngine s cur) = (st', None) ->
  exists t c rest,
    upgrade step = add_column t c :: rest /\
    apply execute step st' =
      (st', Some (ApplyFailed (revision step) (add_column t c)
                    (DuplicateColumn t (name c)))).
Proof.
  intros Hin Hrun. unfold apply in *.
  assert (Heff : Forall (in_effect (schema st')) (edits_of Up step)).
  { apply (versions_edits_in_effect step Up s); [done|].
    by apply (run_step_ok_iff execute Up step (mkEngine s cur) st'). }
  pose proof (versions_body_needs_posts step Up s cur st' Hin Hrun) as Ht.
  pose proof (run_step_tables step Up (mkEngine s cur)) as Htab.
  rewrite Hrun in Htab. cbn [fst schema] in Htab. rewrite <- Htab in Ht.
  assert (Hfirst : exists c rest, upgrade step = add_column "posts" c :: rest).
  { destruct Hin as [<-|[<-|[<-|[]]]]; simpl; eauto. }
  destruct Hfirst as (c & rest & Hup).
  exists "posts", c, rest. split; [done|].
  cbn [edits_of] in Heff. rewrite Hup in Heff.
  apply Forall_cons_1 in Heff as [Hc _]. simpl in Hc.
  unfold run_step. cbn [edits_of]. rewrite Hup. cbn [run_edits].
  rewrite execute_add_column_duplicate by (rewrite ?Hc; eauto).
  by destruct st'.
Qed.

(** Witness for X4: the content script applied twice to the base schema. *)
Lemma upgrade_is_not_repeatable_witness :
  exists t c rest,
    upgrade step_134d9a43f339 = add_column t c :: rest /\
    apply execute step_134d9a43f339
      (fst (apply execute step_134d9a43f339 (mkEngine base_schema None))) =
      (fst (apply execute step_134d9a43f339 (mkEngine base_schema None)),
       Some (ApplyFailed (revision step_134d9a43f339) (add_column t c)
               (DuplicateColumn t (name c)))).
Proof.
  apply (upgrade_is_not_repeatable step_134d9a43f339 base_schema None).
  - simpl. left. reflexivity.
  - vm_compute. reflexivity.
Defined.

(** ** The foreign-key script, down and up again *)

Lemma execute_drop_constraint_missing s t n :
  t ∈ tables s -> constraints s !! (t, n) = None ->
  execute (drop_constraint n t) s = inl (UndefinedConstraint t n).
Proof. intros Ht Hn. simpl. rewrite decide_True by done. by rewrite Hn. Qed.







(** ** A failed upgrade *)



(** ** Column scripts: revert, then apply *)





(** ** Running a downgrade twice *)

Lemma execute_drop_column_missing s t c :
  t ∈ tables s -> columns s !! (t, c) = None ->
  execute (drop_column t c) s = inl (UndefinedColumn t c).
Proof. intros Ht Hc. simpl. rewrite decide_True by done. by rewrite Hc. Qed.

(** X9: none of the three downgrades can be run twice.  On any schema, once
    reverting a script has completed, reverting it again fails at its first
    edit, because the column or constraint that edit drops is gone, and
    changes neither the schema nor ChainState. *)
Theorem downgrade_is_not_repeatable (step : MigrationStep) (s : Schema)
    (cur : option string) (st' : EngineState Schema) :
  In step versions ->
  revert execute step (mkEngine s cur) = (st', None) ->
  exists e rest cause,
    downgrade step = e :: rest /\
    undefined_object e = Some cause /\
    revert execute step st' =
      (st', Some (RevertFailed (revision step) e cause)).
Proof.
  intros Hin Hrun. unfold revert in *.
  assert (Heff : Forall (in_effect (schema st')) (edits_of Down step)).
  { apply (versions_edits_in_effect step Down s); [done|].
    by apply (run_step_ok_iff execute Down step (mkEngine s cur) st'). }
  pose proof (versions_body_needs_posts step Down s cur st' Hin Hrun) as Ht.
  pose proof (run_step_tables step Down (mkEngine s cur)) as Htab.
  rewrite Hrun in Htab. cbn [fst schema] in Htab. rewrite <- Htab in Ht.
  cbn [edits_of] in Heff. unfold run_step. cbn [edits_of].
  destruct Hin as [<-|[<-|[<-|[]]]]; simpl downgrade in *;
    apply Forall_cons_1 in Heff as [Hgone _]; simpl in Hgone;
    do 3 eexists; (split; [reflexivity|]); (split; [reflexivity|]);
    cbn [run_edits];
    first [ rewrite (execute_drop_column_missing _ _ _ Ht Hgone)
          | rewrite (execute_drop_constraint_missing _ _ _ Ht Hgone) ];
    by destruct st'.
Qed.

(** Witness for X9: the content script reverted twice. *)
Lemma downgrade_is_not_repeatable_witness :
  exists e rest cause,
    downgrade step_134d9a43f339 = e :: rest /\
    undefined_object e = Some cause /\
    revert execute step_134d9a43f339
      (mkEngine base_schema (Some "fa8d6eac1730")) =
      (mkEngine base_schema (Some "fa8d6eac1730"),
       Some (RevertFailed (revision step_134d9a43f339) e cause)).
Proof.
  apply (downgrade_is_not_repeatable step_134d9a43f339 base_with_content
           (Some "134d9a43f339")).
  - simpl. left. reflexivity.
  - vm_compute. reflexivity.
Defined.
